(** * react-slot: the [Slot] marker component and the [findSlots] scanner

    A shallow embedding of [src/index.js] and the properties of its
    specification.

    JavaScript objects are mutable and shared by reference, and [findSlots]
    writes into an array ([children[i] = null]) and into an object
    ([slots[name] = ...]).  The embedding therefore keeps an explicit store
    of objects, addressed by location, and runs the code in a small
    state-and-exception monad over that store. *)

From Stdlib Require Import ZArith.
From stdpp Require Import base strings list gmap fin_maps.

(** ** Values and objects *)

(** Locations of the store.  A notation, not a definition, so that the list
    lemmas of stdpp apply to lookups as they are. *)
Abbreviation loc := nat (only parsing).

(** What a React child can be: [undefined], [null], a boolean, a number, a
    string, or a reference to an object of the store (an element or a nested
    array).  Numbers are only ever passed around, never computed with. *)
Inductive value :=
  | VUndefined
  | VNull
  | VBool (b : bool)
  | VNum (n : Z)
  | VStr (s : string)
  | VRef (l : loc).

(** The [type] field of a React element: a reference to a component function
    or a host tag.  [TSlot] is the identity of the function [Slot] of this
    module, [TFragment] that of [React.Fragment]. *)
Inductive etype :=
  | TSlot
  | TFragment
  | THost (tag : string)
  | TComponent (id : nat).

(** The two props the code reads.  [name] is documented as a string
    ([@param {string} name]); [None] is an absent prop, which reads as
    [undefined]. *)
Record Props := mkProps { name : option string; children : value }.

Record element := mkElement { type : etype; key : option string; props : Props }.

(** An object of the store: an array, a React element, or a plain object
    used as a map from own property names to values. *)
Inductive object :=
  | OArr (items : list value)
  | OElem (e : element)
  | OMap (m : gmap string value).

Abbreviation heap := (list object) (only parsing).

#[global] Instance value_eq_dec : EqDecision value.
Proof. solve_decision. Defined.
#[global] Instance etype_eq_dec : EqDecision etype.
Proof. solve_decision. Defined.

(** ** The monad: a store threaded through, and exceptions *)

(** [TypeError] is what the runtime throws on a property read of [null] or
    [undefined]; [MissingSlotName] is
    [new Error('Prop "name" is required for Slot.')]. *)
Inductive error := TypeError | MissingSlotName.

(** [Wrong] marks a store access that no JavaScript run performs (an array
    operation on a location that holds no array); [findSlots] never reaches
    it, see [findSlots_run]. *)
Inductive outcome (A : Type) :=
  | Ret (a : A)
  | Throw (e : error)
  | Wrong.
Arguments Ret {A} a.
Arguments Throw {A} e.
Arguments Wrong {A}.

Definition M (A : Type) : Type := heap → heap * outcome A.

Definition ret {A} (a : A) : M A := λ h, (h, Ret a).
Definition throw {A} (e : error) : M A := λ h, (h, Throw e).
Definition bind {A B} (c : M A) (k : A → M B) : M B :=
  λ h, match c h with
       | (h', Ret a) => k a h'
       | (h', Throw e) => (h', Throw e)
       | (h', Wrong) => (h', Wrong)
       end.

Notation "'do' x <- c ; k" := (bind c (λ x, k))
  (at level 10, x name, c at level 100, k at level 200).
Notation "c ;;; k" := (bind c (λ _, k))
  (at level 100, k at level 200, right associativity).

(** ** Store primitives *)

(** A new object goes to the first unused location. *)
Definition alloc (o : object) : M loc := λ h, (h ++ [o], Ret (length h)).

(** [Array.isArray(v)] *)
Definition is_array (h : heap) (v : value) : bool :=
  match v with
  | VRef l => match h !! l with Some (OArr _) => true | _ => false end
  | _ => false
  end.

Definition isArray (v : value) : M bool := λ h, (h, Ret (is_array h v)).

Definition array_items (a : loc) : M (list value) :=
  λ h, match h !! a with
       | Some (OArr xs) => (h, Ret xs)
       | _ => (h, Wrong)
       end.

(** [v.slice()] on an array: a new array with the same items. *)
Definition slice (v : value) : M loc :=
  match v with
  | VRef a => do xs <- array_items a; alloc (OArr xs)
  | _ => λ h, (h, Wrong)
  end.

(** [a[i]]; a read past the end gives [undefined]. *)
Definition array_get (a : loc) (i : nat) : M value :=
  do xs <- array_items a; ret (default VUndefined (xs !! i)).

(** [a[i] = v] for an index within the array, the only kind of write the
    code does (a write past the end would extend the array). *)
Definition array_set (a : loc) (i : nat) (v : value) : M unit :=
  λ h, match h !! a with
       | Some (OArr xs) => (<[a := OArr (<[i := v]> xs)]> h, Ret tt)
       | _ => (h, Wrong)
       end.

(** [o[k] = v] on a plain object made by [{}].  The map holds the own
    properties.  ["__proto__"] is not one of them: that assignment goes to
    the accessor inherited from [Object.prototype] and creates no own
    property.  When [v] is a primitive other than [null] the accessor does
    nothing else, and the map below is all there is to say.  When [v] is
    [null] or an object the accessor also replaces the prototype of [o],
    and what later writes to [o] do can depend on that prototype (a
    property it holds read-only rejects the write, and without
    [Object.prototype] the name ["__proto__"] is a key like any other).
    The prototype is not part of this model: the properties below that
    state how a call ends are stated for sequences in which no marker
    replaces the prototype, see [installs_prototype]. *)
Definition own_set (k : string) (v : value) (m : gmap string value) : gmap string value :=
  if decide (k = "__proto__") then m else <[k := v]> m.

Definition obj_set (o : value) (k : string) (v : value) : M unit :=
  λ h, match o with
       | VRef l =>
           match h !! l with
           | Some (OMap m) => (<[l := OMap (own_set k v m)]> h, Ret tt)
           | _ => (h, Wrong)
           end
       | _ => (h, Wrong)
       end.

Definition is_TSlot (t : etype) : bool :=
  match t with TSlot => true | _ => false end.

(** [child.type === Slot].  Reading a property of [null] or [undefined]
    throws; a primitive, or an object that is no element, has no [type] that
    could be the function [Slot]. *)
Definition type_is_Slot (child : value) : M bool :=
  λ h, match child with
       | VUndefined | VNull => (h, Throw TypeError)
       | VRef l =>
           match h !! l with
           | Some (OElem e) => (h, Ret (is_TSlot (type e)))
           | _ => (h, Ret false)
           end
       | _ => (h, Ret false)
       end.

(** [child.props], about to be read: on anything but an element [props] is
    [undefined] (or the read itself throws), and reading [.name] of it
    throws. *)
Definition get_props (child : value) : M Props :=
  λ h, match child with
       | VRef l =>
           match h !! l with
           | Some (OElem e) => (h, Ret (props e))
           | _ => (h, Throw TypeError)
           end
       | _ => (h, Throw TypeError)
       end.

(** Truthiness of a string-or-absent value: [!nm] holds for [undefined] and
    for the empty string. *)
Definition truthy (nm : option string) : bool :=
  match nm with
  | None => false
  | Some s => negb (String.eqb s "")
  end.

(** Conversion to a string, as a template literal and a property key do. *)
Definition to_string (nm : option string) : string :=
  match nm with
  | None => "undefined"
  | Some s => s
  end.

Definition is_null (v : value) : bool :=
  match v with VNull => true | _ => false end.

(** [a.filter(p)]: a new array. *)
Definition array_filter (p : value → bool) (a : loc) : M loc :=
  do xs <- array_items a; alloc (OArr (List.filter p xs)).

(** [a.reduce(cb, init)]: the length is read once, then the items are read
    one by one, each at the time it is visited. *)
Fixpoint reduce_from (cb : value → value → nat → M value)
    (a : loc) (n i : nat) (acc : value) : M value :=
  match n with
  | 0 => ret acc
  | S n' =>
      do child <- array_get a i;
      do acc' <- cb acc child i;
      reduce_from cb a n' (S i) acc'
  end.

Definition reduce (cb : value → value → nat → M value) (a : loc) (init : value) : M value :=
  do xs <- array_items a; reduce_from cb a (length xs) 0 init.

(** ** The two exported functions *)

(** [Slot ({ name, children })]: a [React.Fragment] element with key
    [`slot#${name}`] whose only prop is [children]. *)
Definition Slot (p : Props) : M value :=
  do l <- alloc (OElem {| type := TFragment;
                          key := Some ("slot#" +:+ to_string (name p));
                          props := {| name := None; children := children p |} |});
  ret (VRef l).

(** The callback of the [reduce] in [findSlots]; [arr] is the captured
    variable [children]. *)
Definition callback (arr : loc) (slots child : value) (i : nat) : M value :=
  do b <- type_is_Slot child;
  if b then
    do p <- get_props child;
    if negb (truthy (name p)) then throw MissingSlotName
    else
      obj_set slots (to_string (name p)) (children p) ;;;
      array_set arr i VNull ;;;
      ret slots
  else ret slots.

Definition findSlots (children : value) : M value :=
  do b <- isArray children;
  do arr <- (if negb b then alloc (OArr [children]) else slice children);
  do init <- alloc (OMap ∅);
  do slots <- reduce (callback arr) arr (VRef init);
  do d <- array_filter (λ child, negb (is_null child)) arr;
  obj_set slots "default" (VRef d) ;;;
  ret slots.

(** ** What a child is, read off the store *)

(** The three ways the callback can meet a child: the read of [child.type]
    throws, the child is no marker, or it is a [Slot] element with props. *)
Inductive kind :=
  | KNullish
  | KPlain
  | KMarker (p : Props).

Definition classify (h : heap) (v : value) : kind :=
  match v with
  | VUndefined | VNull => KNullish
  | VRef l =>
      match h !! l with
      | Some (OElem e) => if is_TSlot (type e) then KMarker (props e) else KPlain
      | _ => KPlain
      end
  | _ => KPlain
  end.

Definition is_nullish (v : value) : bool :=
  match v with VUndefined | VNull => true | _ => false end.

Definition is_marker (h : heap) (v : value) : bool :=
  match classify h v with KMarker _ => true | _ => false end.

(** A marker whose name prop is [nm] and whose nested content is [c]. *)
Definition marker_of (h : heap) (v : value) (nm : option string) (c : value) : Prop :=
  classify h v = KMarker {| name := nm; children := c |}.

(** A marker whose name is absent or the empty string. *)
Definition unnamed_marker (h : heap) (v : value) : Prop :=
  ∃ c, marker_of h v None c ∨ marker_of h v (Some "") c.

Definition unnamed_markerb (h : heap) (v : value) : bool :=
  match classify h v with
  | KMarker p => negb (truthy (name p))
  | _ => false
  end.

(** A marker whose write [slots[name] = children] replaces the prototype
    of the slot map: it is named ["__proto__"] and its nested content is
    [null] or an object. *)
Definition installs_prototype (h : heap) (v : value) : bool :=
  match classify h v with
  | KMarker p =>
      match name p, children p with
      | Some k, (VNull | VRef _) => String.eqb k "__proto__"
      | _, _ => false
      end
  | _ => false
  end.

(** The sequence [findSlots] works on: the items of an array, or the single
    child. *)
Definition normalized (h : heap) (v : value) : list value :=
  match v with
  | VRef l => match h !! l with Some (OArr xs) => xs | _ => [v] end
  | _ => [v]
  end.

(** The scan as a function of the sequence alone: the slot map built so
    far, the working copy with the consumed positions nulled, and the error
    that stopped it, if any. *)
Fixpoint scan (h : heap) (xs : list value) (m : gmap string value)
    : gmap string value * list value * option error :=
  match xs with
  | [] => (m, [], None)
  | x :: xs' =>
      match classify h x with
      | KNullish => (m, xs, Some TypeError)
      | KPlain =>
          let '(m', ys, e) := scan h xs' m in (m', x :: ys, e)
      | KMarker p =>
          if truthy (name p) then
            let '(m', ys, e) := scan h xs' (own_set (to_string (name p)) (children p) m) in
            (m', VNull :: ys, e)
          else (m, xs, Some MissingSlotName)
      end
  end.

(** The items of the array a value refers to. *)
Definition items_at (h : heap) (v : value) : option (list value) :=
  match v with
  | VRef l => match h !! l with Some (OArr xs) => Some xs | _ => None end
  | _ => None
  end.

(** What a caller can see of a call, whatever the locations its new objects
    went to: the error, or the named entries of the returned map together
    with the items of its [default] array. *)
Definition view (r : heap * outcome value)
    : outcome (gmap string value * option (list value)) :=
  match r.2 with
  | Ret (VRef l) =>
      match r.1 !! l with
      | Some (OMap m) => Ret (delete "default" m, m !! "default" ≫= items_at r.1)
      | _ => Wrong
      end
  | Ret _ => Wrong
  | Throw e => Throw e
  | Wrong => Wrong
  end.

(** A value of the store [h]: a primitive, or a reference to one of its
    objects. *)
Definition value_in (h : heap) (v : value) : Prop :=
  match v with VRef l => l < length h | _ => True end.

Definition elem_at (h : heap) (l : loc) : option element :=
  match h !! l with Some (OElem e) => Some e | _ => None end.

Definition not_elem (o : object) : Prop :=
  match o with OElem _ => False | _ => True end.

(** The nested content of the last marker named [k] in a sequence, if there
    is one. *)
Fixpoint last_named (h : heap) (k : string) (xs : list value) : option value :=
  match xs with
  | [] => None
  | x :: xs' =>
      match last_named h k xs' with
      | Some c => Some c
      | None =>
          match classify h x with
          | KMarker p => if decide (name p = Some k) then Some (children p) else None
          | _ => None
          end
      end
  end.

(** ** Sample stores *)

Definition span (text : string) : object :=
  OElem {| type := THost "span"; key := None;
           props := {| name := None; children := VStr text |} |}.

Definition slot_elem (nm : option string) (c : value) : object :=
  OElem {| type := TSlot; key := None; props := {| name := nm; children := c |} |}.

(** The example of the documentation: a [foo] slot, a [bar] slot and a
    plain [span], each slot holding a [span]; location 5 is the array of
    children. *)
Definition doc_store : heap :=
  [span "foo"; span "bar"; span "baz";
   slot_elem (Some "foo") (VRef 0); slot_elem (Some "bar") (VRef 1);
   OArr [VRef 3; VRef 4; VRef 2]].

(** [[A, Slot(name="x"), B, C]] at location 4. *)
Definition order_store : heap :=
  [span "A"; span "B"; span "C"; slot_elem (Some "x") VUndefined;
   OArr [VRef 0; VRef 3; VRef 1; VRef 2]].

(** One marker among a string and a [span], at location 2. *)
Definition one_store : heap :=
  [span "baz"; slot_elem (Some "foo") (VRef 0); OArr [VRef 0; VRef 1; VStr "text"]].

(** Children of every kind that is no marker, at location 1. *)
Definition foreign_store : heap :=
  [span "s"; OArr [VBool false; VNum 5; VStr "text"; VRef 0; VRef 1]].

(** Two markers named [foo], at location 2. *)
Definition twice_store : heap :=
  [slot_elem (Some "foo") (VStr "first"); slot_elem (Some "foo") (VStr "second");
   OArr [VRef 0; VStr "between"; VRef 1]].

(** A marker named [default], at location 1. *)
Definition default_store : heap :=
  [slot_elem (Some "default") (VStr "lost"); OArr [VRef 0; VStr "kept"]].

(** A named marker, a marker without a name and a named marker again, at
    location 2. *)
Definition unnamed_store : heap :=
  [slot_elem (Some "a") (VStr "x"); slot_elem None (VStr "y");
   OArr [VRef 0; VRef 1; VRef 0]].

(** A [null] child, as [{cond ? <b/> : null}] leaves one, before a marker:
    named [foo] at location 1, with an empty name at location 3. *)
Definition null_store : heap :=
  [slot_elem (Some "foo") (VStr "c"); OArr [VNull; VRef 0];
   slot_elem (Some "") (VStr "c"); OArr [VNull; VRef 2];
   OArr [VStr "text"; VNull]].

(** A marker without a name after a string, then a [null] child, at
    location 1. *)
Definition late_null_store : heap :=
  [slot_elem None (VStr "y"); OArr [VStr "text"; VRef 0; VNull]].

(** Two sequences and their concatenation, at locations 2, 3 and 4; both
    hold a marker named [a]. *)
Definition concat_store : heap :=
  [slot_elem (Some "a") (VStr "1"); slot_elem (Some "a") (VStr "2");
   OArr [VRef 0; VStr "x"]; OArr [VRef 1; VStr "y"];
   OArr [VRef 0; VStr "x"; VRef 1; VStr "y"]].

(** ** The run of [findSlots], step by step *)

Section Run.
Implicit Types (h : heap) (v x : value) (xs ys : list value)
  (m : gmap string value) (l a sl : loc) (o : object).

Lemma classify_ext h h' v :
  (∀ l, elem_at h' l = elem_at h l) → classify h' v = classify h v.
Proof.
  intros E. destruct v as [| | | | |l]; simpl; try reflexivity.
  specialize (E l). unfold elem_at in E.
  destruct (h' !! l) as [[]|], (h !! l) as [[]|]; simplify_eq/=; done.
Qed.

Lemma elem_at_insert h l o l' :
  not_elem o → elem_at h l = None → elem_at (<[l := o]> h) l' = elem_at h l'.
Proof.
  intros Ho Hl. unfold elem_at in *.
  destruct (decide (l = l')) as [<-|Hne].
  - destruct (decide (l < length h)) as [Hlt|Hge].
    + rewrite list_lookup_insert_eq by done.
      destruct o; simpl in *; try done; by rewrite Hl.
    + rewrite list_insert_ge by lia. done.
  - by rewrite list_lookup_insert_ne.
Qed.

Lemma elem_at_app h o l :
  not_elem o → elem_at (h ++ [o]) l = elem_at h l.
Proof.
  intros Ho. unfold elem_at.
  destruct (decide (l < length h)) as [Hlt|Hge].
  - by rewrite lookup_app_l.
  - rewrite lookup_app_r by lia. rewrite (lookup_ge_None_2 h) by lia.
    destruct (l - length h) as [|k]; simpl; [by destruct o|done].
Qed.

(** One call of the callback. *)
Lemma callback_run h h0 a sl xs m x i :
  (∀ l, elem_at h l = elem_at h0 l) →
  h !! a = Some (OArr xs) → h !! sl = Some (OMap m) →
  callback a (VRef sl) x i h =
    match classify h0 x with
    | KNullish => (h, Throw TypeError)
    | KPlain => (h, Ret (VRef sl))
    | KMarker p =>
        if truthy (name p) then
          (<[a := OArr (<[i := VNull]> xs)]>
             (<[sl := OMap (own_set (to_string (name p)) (children p) m)]> h),
           Ret (VRef sl))
        else (h, Throw MissingSlotName)
    end.
Proof.
  intros E Ha Hsl. rewrite <- (classify_ext h0 h x E).
  unfold callback, bind, type_is_Slot, get_props, classify.
  destruct x as [| | | | |l]; try reflexivity.
  destruct (h !! l) as [[| e |]|] eqn:Hl; try reflexivity.
  destruct (is_TSlot (type e)); [|reflexivity].
  rewrite Hl.
  destruct (truthy (name (props e))); simpl; [|reflexivity].
  unfold obj_set, array_set. rewrite Hsl.
  destruct (decide (a = sl)) as [->|Hne]; [congruence|].
  rewrite list_lookup_insert_ne by done. rewrite Ha. reflexivity.
Qed.

Lemma store_same h a sl xs m :
  h !! a = Some (OArr xs) → h !! sl = Some (OMap m) →
  <[a := OArr xs]> (<[sl := OMap m]> h) = h.
Proof.
  intros Ha Hsl. rewrite (list_insert_id h sl) by done. by apply list_insert_id.
Qed.

(** The loop of [reduce], from index [length pre] on, against [scan] on
    the items still to visit. *)
Lemma reduce_from_run h0 a sl :
  a ≠ sl →
  ∀ rest pre m h,
    (∀ l, elem_at h l = elem_at h0 l) →
    h !! a = Some (OArr (pre ++ rest)) → h !! sl = Some (OMap m) →
    reduce_from (callback a) a (length rest) (length pre) (VRef sl) h =
      let '(m', ys, e) := scan h0 rest m in
      (<[a := OArr (pre ++ ys)]> (<[sl := OMap m']> h),
       match e with None => Ret (VRef sl) | Some e => Throw e end).
Proof.
  intros Hne. induction rest as [|x rest IH]; intros pre m h E Ha Hsl.
  - simpl. unfold ret. by rewrite store_same.
  - simpl reduce_from. unfold bind at 1. unfold array_get, bind, array_items, ret.
    rewrite Ha, list_lookup_middle by done. simpl default.
    rewrite (callback_run h h0 a sl (pre ++ x :: rest) m x (length pre) E Ha Hsl).
    simpl scan. destruct (classify h0 x) as [| |p].
    + by rewrite store_same.
    + specialize (IH (pre ++ [x]) m h E).
      rewrite length_app, Nat.add_1_r, <- app_assoc in IH. simpl in IH.
      rewrite (IH Ha Hsl). destruct (scan h0 rest m) as [[m' ys] e].
      by rewrite <- app_assoc.
    + destruct (truthy (name p)); [|by rewrite store_same].
      set (m1 := own_set (to_string (name p)) (children p) m).
      assert (Hlen : a < length h) by (by eapply lookup_lt_Some).
      assert (Hlen' : sl < length h) by (by eapply lookup_lt_Some).
      replace (<[length pre := VNull]> (pre ++ x :: rest)) with ((pre ++ [VNull]) ++ rest).
      2:{ rewrite <- app_assoc. simpl.
          rewrite insert_app_r_alt by lia. by rewrite Nat.sub_diag. }
      replace (S (length pre)) with (length (pre ++ [VNull]))
        by (rewrite length_app; simpl; lia).
      rewrite IH with (m := m1).
      * destruct (scan h0 rest m1) as [[m' ys] e]. f_equal.
        rewrite <- app_assoc. simpl.
        rewrite (list_insert_insert_ne _ sl a) by done.
        rewrite list_insert_insert_eq.
        by rewrite list_insert_insert_eq.
      * intros l. rewrite !elem_at_insert; try done.
        -- unfold elem_at. by rewrite Hsl.
        -- unfold elem_at. rewrite list_lookup_insert_ne by done. by rewrite Ha.
      * apply list_lookup_insert_eq. by rewrite length_insert.
      * rewrite list_lookup_insert_ne by done. by apply list_lookup_insert_eq.
Qed.

Lemma store_tail h o1 o2 o1' o2' :
  <[length h := o1']> (<[S (length h) := o2']> (h ++ [o1; o2])) = h ++ [o1'; o2'].
Proof.
  rewrite !insert_app_r_alt by lia.
  replace (S (length h) - length h) with 1 by lia.
  by rewrite Nat.sub_diag.
Qed.

(** The first two lines of [findSlots]: the working copy is a new array
    holding the normalized sequence. *)
Lemma normalize_run {B} v (k : loc → M B) h :
  bind (isArray v) (λ b, bind (if negb b then alloc (OArr [v]) else slice v) k) h =
    k (length h) (h ++ [OArr (normalized h v)]).
Proof.
  unfold bind at 1. unfold isArray, is_array, normalized.
  destruct v as [| | | | |l]; try reflexivity.
  destruct (h !! l) as [[xs| |]|] eqn:Hl; try reflexivity.
  simpl. unfold bind, slice, bind, array_items. by rewrite Hl.
Qed.

(** The whole run, as a function of the store and the input: the store
    gains the working copy, the slot map and, when the scan gets through,
    the array of the default group; nothing else changes. *)
Theorem findSlots_run h v :
  findSlots v h =
    let '(m, ys, e) := scan h (normalized h v) ∅ in
    match e with
    | Some e => (h ++ [OArr ys; OMap m], Throw e)
    | None =>
        (h ++ [OArr ys;
               OMap (<["default" := VRef (S (S (length h)))]> m);
               OArr (List.filter (λ child, negb (is_null child)) ys)],
         Ret (VRef (S (length h))))
    end.
Proof.
  unfold findSlots. rewrite normalize_run.
  set (xs := normalized h v).
  unfold bind at 1. unfold alloc at 1. rewrite length_app, Nat.add_1_r. simpl length.
  rewrite <- app_assoc. simpl app.
  unfold bind at 1. unfold reduce, bind at 1, array_items.
  rewrite (list_lookup_middle h [OMap ∅] (OArr xs) (length h) eq_refl).
  pose proof (reduce_from_run h (length h) (S (length h)) (Nat.neq_succ_diag_r _)
                xs [] ∅ (h ++ [OArr xs; OMap ∅])) as R.
  simpl in R. rewrite R; clear R.
  - destruct (scan h xs ∅) as [[m ys] e]. rewrite store_tail.
    destruct e as [e|]; [reflexivity|].
    unfold bind at 1. unfold array_filter, bind, array_items.
    rewrite (list_lookup_middle h [OMap m] (OArr ys) (length h) eq_refl).
    unfold alloc, obj_set, ret. rewrite length_app. simpl length.
    rewrite Nat.add_comm. simpl Nat.add.
    replace (h ++ [OArr ys; OMap m]) with ((h ++ [OArr ys]) ++ [OMap m])
      by (by rewrite <- app_assoc).
    rewrite <- (app_assoc (h ++ [OArr ys])). simpl app.
    assert (Hl : length (h ++ [OArr ys]) = S (length h))
      by (rewrite length_app; simpl; lia).
    rewrite <- Hl.
    rewrite list_lookup_middle by done.
    rewrite insert_app_r_alt by lia. rewrite Nat.sub_diag. simpl.
    rewrite <- app_assoc. reflexivity.
  - intros l.
    replace (h ++ [OArr xs; OMap ∅]) with ((h ++ [OArr xs]) ++ [OMap ∅])
      by (by rewrite <- app_assoc).
    by rewrite !elem_at_app.
  - by apply list_lookup_middle.
  - replace (h ++ [OArr xs; OMap ∅]) with ((h ++ [OArr xs]) ++ [OMap ∅])
      by (by rewrite <- app_assoc).
    apply list_lookup_middle. rewrite length_app; simpl; lia.
Qed.
End Run.

(** ** Properties of the scan *)

Section Scan.
Implicit Types (h : heap) (v x : value) (xs ys pre post : list value)
  (m : gmap string value) (k : string) (p : Props).

Lemma truthy_false nm : truthy nm = false ↔ nm = None ∨ nm = Some "".
Proof.
  destruct nm as [s|]; simpl.
  - rewrite negb_false_iff, String.eqb_eq. split.
    + intros ->. by right.
    + intros [?|[= ->]]; done.
  - split; [by left|done].
Qed.

Lemma unnamed_marker_classify h x :
  unnamed_marker h x ↔ ∃ p, classify h x = KMarker p ∧ truthy (name p) = false.
Proof.
  unfold unnamed_marker, marker_of. split.
  - intros [c [H|H]]; eexists; (split; [exact H|reflexivity]).
  - intros ([nm c] & H & Ht). simpl in Ht. apply truthy_false in Ht as [->| ->]; eauto.
Qed.

Lemma unnamed_markerb_spec h x : unnamed_markerb h x = true ↔ unnamed_marker h x.
Proof.
  rewrite unnamed_marker_classify. unfold unnamed_markerb.
  destruct (classify h x) as [| |p].
  - split; [done|]. by intros (? & ? & _).
  - split; [done|]. by intros (? & ? & _).
  - rewrite negb_true_iff. split.
    + intros Ht. by exists p.
    + by intros (? & [= <-] & Ht).
Qed.

Lemma is_marker_false h x :
  is_nullish x = false → is_marker h x = false → classify h x = KPlain.
Proof.
  unfold is_marker. destruct x; simpl; try done.
  destruct (h !! l) as [[]|]; try done. by destruct (is_TSlot (type e)).
Qed.

Lemma classify_plain h x :
  classify h x = KPlain → is_nullish x = false ∧ is_marker h x = false ∧ is_null x = false.
Proof.
  unfold is_marker. intros H. rewrite H. by destruct x.
Qed.

Lemma classify_marker h x p :
  classify h x = KMarker p → is_nullish x = false ∧ is_marker h x = true.
Proof.
  unfold is_marker. intros H. rewrite H. by destruct x.
Qed.

Lemma classify_nullish h x : classify h x = KNullish ↔ is_nullish x = true.
Proof.
  destruct x; simpl; try done.
  destruct (h !! l) as [[]|]; try done. by destruct (is_TSlot (type e)).
Qed.

(** A sequence of plain children goes through untouched. *)
Lemma scan_plain h xs m :
  Forall (λ x, classify h x = KPlain) xs → scan h xs m = (m, xs, None).
Proof.
  induction 1 as [|x xs Hx _ IH]; simpl; [done|]. by rewrite Hx, IH.
Qed.

(** The scan of a concatenation, when the first part gets through. *)
Lemma scan_app h pre post m m1 ys1 :
  scan h pre m = (m1, ys1, None) →
  scan h (pre ++ post) m =
    let '(m2, ys2, e) := scan h post m1 in (m2, ys1 ++ ys2, e).
Proof.
  revert m ys1. induction pre as [|x pre IH]; intros m ys1 H; simpl in *.
  - simplify_eq. by destruct (scan h post m1) as [[? ?] ?].
  - destruct (classify h x) as [| |p]; [done| |].
    + destruct (scan h pre m) as [[m' ys'] e'] eqn:E. simplify_eq.
      rewrite (IH _ _ E). by destruct (scan h post m1) as [[? ?] ?].
    + destruct (truthy (name p)); [|done].
      destruct (scan h pre _) as [[m' ys'] e'] eqn:E. simplify_eq.
      rewrite (IH _ _ E). by destruct (scan h post m1) as [[? ?] ?].
Qed.

(** A scan that got through a concatenation got through its first part. *)
Lemma scan_app_inv h pre post m m' ys :
  scan h (pre ++ post) m = (m', ys, None) →
  ∃ m1 ys1 ys2, scan h pre m = (m1, ys1, None) ∧
                scan h post m1 = (m', ys2, None) ∧ ys = ys1 ++ ys2.
Proof.
  revert m ys. induction pre as [|x pre IH]; intros m ys H; simpl in *.
  - by exists m, [], ys.
  - destruct (classify h x) as [| |p]; [done| |].
    + destruct (scan h (pre ++ post) m) as [[m2 ys2] e2] eqn:E. simplify_eq.
      destruct (IH _ _ E) as (m1 & ys1 & ys3 & -> & ? & ->). by exists m1, (x :: ys1), ys3.
    + destruct (truthy (name p)); [|done].
      destruct (scan h (pre ++ post) _) as [[m2 ys2] e2] eqn:E. simplify_eq.
      destruct (IH _ _ E) as (m1 & ys1 & ys3 & -> & ? & ->). by exists m1, (VNull :: ys1), ys3.
Qed.

(** After a scan that got through, the items that are not [null] are the
    children that are no markers. *)
Lemma scan_filter h xs m m' ys :
  scan h xs m = (m', ys, None) →
  List.filter (λ child, negb (is_null child)) ys =
    List.filter (λ x, negb (is_marker h x)) xs.
Proof.
  revert m ys. induction xs as [|x xs IH]; intros m ys H; simpl in *.
  - by simplify_eq.
  - destruct (classify h x) as [| |p] eqn:Hx; [done| |].
    + destruct (scan h xs m) as [[m2 ys2] e2] eqn:E. simplify_eq.
      destruct (classify_plain _ _ Hx) as (_ & -> & Hn). simpl. rewrite Hn. simpl.
      f_equal. eauto.
    + destruct (truthy (name p)); [|done].
      destruct (scan h xs _) as [[m2 ys2] e2] eqn:E. simplify_eq.
      destruct (classify_marker _ _ _ Hx) as (_ & ->). simpl. eauto.
Qed.

(** The working copy keeps its length. *)
Lemma scan_length h xs m : length (scan h xs m).1.2 = length xs.
Proof.
  revert m. induction xs as [|x xs IH]; intros m; simpl; [done|].
  destruct (classify h x) as [| |p]; [done| |].
  - specialize (IH m). destruct (scan h xs m) as [[? ?] ?]. simpl in *. by rewrite IH.
  - destruct (truthy (name p)); [|done].
    specialize (IH (own_set (to_string (name p)) (children p) m)).
    destruct (scan h xs _) as [[? ?] ?]. simpl in *. by rewrite IH.
Qed.

(** Which error stops the scan of a sequence free of [null] and
    [undefined]. *)
Lemma scan_error h xs m :
  Forall (λ x, is_nullish x = false) xs →
  (scan h xs m).2 = (if existsb (unnamed_markerb h) xs then Some MissingSlotName else None).
Proof.
  intros H. revert m. induction H as [|x xs Hx _ IH]; intros m; simpl; [done|].
  unfold unnamed_markerb at 1.
  destruct (classify h x) as [| |p] eqn:Hc.
  - apply classify_nullish in Hc. congruence.
  - specialize (IH m). destruct (scan h xs m) as [[? ?] ?]. done.
  - destruct (truthy (name p)); simpl; [|done].
    specialize (IH (own_set (to_string (name p)) (children p) m)).
    by destruct (scan h xs _) as [[? ?] ?].
Qed.

(** The scan writes only the keys that name a marker. *)
Lemma scan_lookup_other h xs m k :
  Forall (λ x, ∀ c, ¬ marker_of h x (Some k) c) xs →
  (scan h xs m).1.1 !! k = m !! k.
Proof.
  intros H. revert m. induction H as [|x xs Hx _ IH]; intros m; simpl; [done|].
  destruct (classify h x) as [| |[nm c]] eqn:Hc; [done| |].
  - specialize (IH m). by destruct (scan h xs m) as [[? ?] ?].
  - simpl. destruct (truthy nm) eqn:Ht; [|done].
    specialize (IH (own_set (to_string nm) c m)).
    destruct (scan h xs _) as [[? ?] ?]. simpl in *. rewrite IH.
    unfold own_set. case_decide; [done|].
    apply lookup_insert_ne. intros <-. apply (Hx c). unfold marker_of. rewrite Hc.
    destruct nm; [done|discriminate].
Qed.
Lemma scan_app_error h pre post m m1 ys1 e :
  scan h pre m = (m1, ys1, Some e) →
  scan h (pre ++ post) m = (m1, ys1 ++ post, Some e).
Proof.
  revert m ys1. induction pre as [|x pre IH]; intros m ys1 H; simpl in *; [done|].
  destruct (classify h x) as [| |p].
  - by simplify_eq.
  - destruct (scan h pre m) as [[m' ys'] e'] eqn:E. simplify_eq.
    by rewrite (IH _ _ E).
  - destruct (truthy (name p)); [|by simplify_eq].
    destruct (scan h pre _) as [[m' ys'] e'] eqn:E. simplify_eq.
    by rewrite (IH _ _ E).
Qed.

(** A scan stopped by the missing-name error stopped at a marker without a
    name, with no [null], no [undefined] and no such marker before it. *)
Lemma scan_missing_inv h xs m :
  (scan h xs m).2 = Some MissingSlotName →
  ∃ pre x post, xs = pre ++ x :: post ∧ unnamed_marker h x ∧
                Forall (λ y, is_nullish y = false) pre ∧
                Forall (λ y, ¬ unnamed_marker h y) pre.
Proof.
  revert m. induction xs as [|x xs IH]; intros m; simpl; [done|].
  destruct (classify h x) as [| |p] eqn:Hc; [done| |].
  - specialize (IH m). destruct (scan h xs m) as [[m' ys] e]. simpl in *.
    intros (pre & y & post & -> & Hy & Hn & Hu)%IH.
    exists (x :: pre), y, post. split; [done|]. split; [done|].
    split; constructor; try done.
    + by apply classify_plain in Hc as [? _].
    + intros (q & Hq & _)%unnamed_marker_classify. congruence.
  - destruct (truthy (name p)) eqn:Ht.
    + specialize (IH (own_set (to_string (name p)) (children p) m)).
      destruct (scan h xs _) as [[m' ys] e]. simpl in *.
      intros (pre & y & post & -> & Hy & Hn & Hu)%IH.
      exists (x :: pre), y, post. split; [done|]. split; [done|].
      split; constructor; try done.
      * by apply classify_marker in Hc as [? _].
      * intros (q & Hq & Hf)%unnamed_marker_classify. congruence.
    + intros _. exists [], x, xs. split; [done|]. split; [|by split].
      apply unnamed_marker_classify. eauto.
Qed.

Lemma scan_named h xs m0 k :
  k ≠ "__proto__" →
  (scan h xs m0).2 = None →
  (scan h xs m0).1.1 !! k =
    match last_named h k xs with Some c => Some c | None => m0 !! k end.
Proof.
  intros Hk. revert m0. induction xs as [|x xs IH]; intros m0; simpl; [done|].
  destruct (classify h x) as [| |[nm c]] eqn:Hc; [done| |].
  - specialize (IH m0). destruct (scan h xs m0) as [[m' ys] e]. simpl in *.
    intros He. rewrite (IH He). by destruct (last_named h k xs).
  - simpl. destruct (truthy nm) eqn:Ht; [|done].
    specialize (IH (own_set (to_string nm) c m0)).
    destruct (scan h xs _) as [[m' ys] e]. simpl in *.
    intros He. rewrite (IH He). destruct (last_named h k xs); [done|].
    destruct nm as [s|]; [|done]. simpl. unfold own_set.
    destruct (decide (Some s = Some k)) as [[= ->]|Hne].
    + rewrite decide_False by done. apply lookup_insert_eq.
    + case_decide; [done|]. apply lookup_insert_ne. congruence.
Qed.
End Scan.

(** ** The result of a call *)

Section Result.
Implicit Types (h : heap) (v x : value) (xs ys pre post : list value)
  (m : gmap string value) (k : string).

Lemma lookup_new_map h o1 o2 o3 : (h ++ [o1; o2; o3]) !! S (length h) = Some o2.
Proof. rewrite lookup_app_r by lia. by replace (S (length h) - length h) with 1 by lia. Qed.

Lemma lookup_new_default h o1 o2 o3 : (h ++ [o1; o2; o3]) !! S (S (length h)) = Some o3.
Proof. rewrite lookup_app_r by lia. by replace (S (S (length h)) - length h) with 2 by lia. Qed.

(** A call returns exactly when the scan gets through; it then returns the
    slot map, a new object, whose [default] entry is a new array. *)
Lemma findSlots_Ret h v h' r :
  findSlots v h = (h', Ret r) ↔
  ∃ m ys, scan h (normalized h v) ∅ = (m, ys, None) ∧
          r = VRef (S (length h)) ∧
          h' = h ++ [OArr ys;
                     OMap (<["default" := VRef (S (S (length h)))]> m);
                     OArr (List.filter (λ x, negb (is_marker h x)) (normalized h v))].
Proof.
  rewrite findSlots_run.
  destruct (scan h (normalized h v) ∅) as [[m ys] [e|]] eqn:E.
  - split; [done|]. by intros (? & ? & ? & _).
  - rewrite (scan_filter _ _ _ _ _ E). split.
    + intros ?; simplify_eq. by exists m, ys.
    + intros (? & ? & ? & -> & ->). by simplify_eq.
Qed.

Lemma findSlots_Throw h v e :
  (findSlots v h).2 = Throw e ↔ (scan h (normalized h v) ∅).2 = Some e.
Proof.
  rewrite findSlots_run.
  destruct (scan h (normalized h v) ∅) as [[m ys] [e'|]]; simpl; split; congruence.
Qed.

(** Every call ends with a value or with one of the two errors. *)
Lemma findSlots_not_Wrong h v : (findSlots v h).2 ≠ Wrong.
Proof.
  rewrite findSlots_run.
  by destruct (scan h (normalized h v) ∅) as [[m ys] [e|]].
Qed.

(** No call changes an object that was in the store before it. *)
Lemma findSlots_frame h v : take (length h) (findSlots v h).1 = h.
Proof.
  rewrite findSlots_run.
  destruct (scan h (normalized h v) ∅) as [[m ys] [e|]]; simpl; apply take_app_length.
Qed.
End Result.

(** ** One named marker, and no marker at all *)

Section Partition.
Implicit Types (h : heap) (v x : value) (xs ys pre post : list value)
  (m : gmap string value).

Lemma Forall_plain h xs :
  Forall (λ x, is_marker h x = false) xs →
  Forall (λ x, is_nullish x = false) xs →
  Forall (λ x, classify h x = KPlain) xs.
Proof.
  intros Hm Hn. apply Forall_lookup; intros i x Hi.
  apply is_marker_false.
  - by eapply (proj1 (Forall_lookup _ _) Hn).
  - by eapply (proj1 (Forall_lookup _ _) Hm).
Qed.

Lemma filter_keep_all {A} (f : A → bool) (l : list A) :
  Forall (λ a, f a = true) l → List.filter f l = l.
Proof. induction 1 as [|a l Ha _ IH]; simpl; [done|]. by rewrite Ha, IH. Qed.

Lemma filter_no_marker h xs :
  Forall (λ x, is_marker h x = false) xs →
  List.filter (λ x, negb (is_marker h x)) xs = xs.
Proof.
  intros H. apply filter_keep_all. eapply Forall_impl; [exact H|].
  by intros x ->.
Qed.
End Partition.

(** C1 (as amended).  When exactly one child is a [Slot] marker, named
    ["foo"] with nested content [C], and no child is [null] or [undefined],
    [findSlots] returns a map with exactly two keys: [foo], bound to [C],
    and [default], bound to an array of the other children in their
    original order. *)
Theorem findSlots_one_marker h v pre mk post C :
  normalized h v = pre ++ mk :: post →
  marker_of h mk (Some "foo") C →
  Forall (λ x, is_marker h x = false) (pre ++ post) →
  Forall (λ x, is_nullish x = false) (pre ++ post) →
  ∃ h' r d,
    findSlots v h = (h', Ret (VRef r)) ∧
    h' !! r = Some (OMap (<["default" := VRef d]> {["foo" := C]})) ∧
    h' !! d = Some (OArr (pre ++ post)).
Proof.
  intros Hv Hmk Hm Hn.
  pose proof (Forall_plain _ _ Hm Hn) as Hp. apply Forall_app in Hp as [Hpre Hpost].
  apply Forall_app in Hm as [Hm1 Hm2].
  assert (Hs : scan h (pre ++ mk :: post) ∅ = ({["foo" := C]}, pre ++ VNull :: post, None)).
  { rewrite (scan_app _ _ _ _ _ _ (scan_plain h pre ∅ Hpre)). simpl.
    unfold marker_of in Hmk. rewrite Hmk. simpl.
    by rewrite (scan_plain h post _ Hpost). }
  eexists _, _, _. split; [|split].
  - apply findSlots_Ret. eexists _, _. rewrite Hv. eauto.
  - apply lookup_new_map.
  - rewrite lookup_new_default. rewrite List.filter_app. simpl.
    unfold is_marker at 2. unfold marker_of in Hmk. rewrite Hmk. simpl.
    by rewrite !filter_no_marker.
Qed.

(** C3 (as amended).  When no child is a [Slot] marker and no child is
    [null] or [undefined], [findSlots] returns a map whose only key is
    [default], bound to an array with the same children in the same
    order. *)
Theorem findSlots_no_marker h v :
  Forall (λ x, is_marker h x = false) (normalized h v) →
  Forall (λ x, is_nullish x = false) (normalized h v) →
  ∃ h' r d,
    findSlots v h = (h', Ret (VRef r)) ∧
    h' !! r = Some (OMap {["default" := VRef d]}) ∧
    h' !! d = Some (OArr (normalized h v)).
Proof.
  intros Hm Hn. pose proof (Forall_plain _ _ Hm Hn) as Hp.
  eexists _, _, _. split; [|split].
  - apply findSlots_Ret. eexists _, _. rewrite (scan_plain _ _ _ Hp). eauto.
  - apply lookup_new_map.
  - rewrite lookup_new_default. by rewrite filter_no_marker.
Qed.

(** ** The default group *)

Lemma filter_sublist {A} (f : A → bool) (l : list A) : sublist (List.filter f l) l.
Proof.
  induction l as [|a l IH]; simpl; [constructor|].
  destruct (f a); by constructor.
Qed.

(** C7.  Whenever [findSlots] returns, the [default] entry of its result is
    an array holding exactly the children that are no markers, in the order
    they have in the input: a subsequence of the input. *)
Theorem findSlots_default_order h v h' r :
  findSlots v h = (h', Ret r) →
  ∃ l m d ys,
    r = VRef l ∧ h' !! l = Some (OMap m) ∧
    m !! "default" = Some (VRef d) ∧ h' !! d = Some (OArr ys) ∧
    ys = List.filter (λ x, negb (is_marker h x)) (normalized h v) ∧
    sublist ys (normalized h v).
Proof.
  intros (m & ys & Hs & -> & ->)%findSlots_Ret.
  eexists _, _, _, _. split; [reflexivity|]. split; [apply lookup_new_map|].
  split; [apply lookup_insert_eq|]. split; [apply lookup_new_default|].
  split; [reflexivity|apply filter_sublist].
Qed.

(** C10.  Whenever [findSlots] returns, the [default] entry of its result
    is a reference to an array made by the call, holding the children that
    are no markers.  A marker named ["default"] does not change that: its
    nested content, a value of the caller's store, is not what [default] is
    bound to.  The map returned is the map [m0] the scan has built, with its
    [default] entry replaced: [m0] records under every name the nested
    content of the last marker of that name, under ["default"] that of the
    last marker named ["default"], and this one entry is what the final
    assignment overwrites; every other entry of the result is an entry of
    [m0], so the content of a marker named ["default"] is under no key on
    its account. *)
Theorem findSlots_default_overwrites h v h' r :
  findSlots v h = (h', Ret r) →
  ∃ l m d,
    r = VRef l ∧ h' !! l = Some (OMap m) ∧
    m !! "default" = Some (VRef d) ∧ h !! d = None ∧
    h' !! d = Some (OArr (List.filter (λ x, negb (is_marker h x)) (normalized h v))) ∧
    (∀ x C, x ∈ normalized h v → marker_of h x (Some "default") C →
            value_in h C → m !! "default" ≠ Some C) ∧
    ∃ m0, m = <["default" := VRef d]> m0 ∧
          ∀ k, k ≠ "__proto__" → m0 !! k = last_named h k (normalized h v).
Proof.
  intros (m & ys & Hs & -> & ->)%findSlots_Ret.
  eexists _, _, (S (S (length h))). split; [reflexivity|]. split; [apply lookup_new_map|].
  split; [apply lookup_insert_eq|]. split; [apply lookup_ge_None_2; lia|].
  split; [apply lookup_new_default|]. split.
  - intros x C _ _ HC. rewrite lookup_insert_eq. intros [= <-]. simpl in HC. lia.
  - exists m. split; [done|]. intros k Hk.
    pose proof (scan_named h (normalized h v) ∅ k Hk) as Hn.
    rewrite Hs in Hn. simpl in Hn. rewrite Hn by done.
    by destruct (last_named h k (normalized h v)).
Qed.

(** ** Markers that share a name *)

(** C5.  When two markers are named ["foo"], with nested contents [C1] and
    then [C2], and no marker named ["foo"] follows the second, the [foo]
    entry of the result is [C2] alone: the later write replaces the
    earlier. *)
Theorem findSlots_last_write_wins h v pre m1 mid m2 post C1 C2 h' r :
  normalized h v = pre ++ m1 :: mid ++ m2 :: post →
  marker_of h m1 (Some "foo") C1 →
  marker_of h m2 (Some "foo") C2 →
  Forall (λ x, ∀ c, ¬ marker_of h x (Some "foo") c) post →
  findSlots v h = (h', Ret r) →
  ∃ l m, r = VRef l ∧ h' !! l = Some (OMap m) ∧ m !! "foo" = Some C2.
Proof.
  intros Hv _ H2 Hpost (m & ys & Hs & -> & ->)%findSlots_Ret.
  eexists _, _. split; [reflexivity|]. split; [apply lookup_new_map|].
  rewrite lookup_insert_ne by done.
  rewrite Hv in Hs.
  replace (pre ++ m1 :: mid ++ m2 :: post) with ((pre ++ m1 :: mid) ++ m2 :: post) in Hs
    by (by rewrite <- app_assoc).
  apply scan_app_inv in Hs as (ma & ys1 & ys2 & _ & Hs & _).
  simpl in Hs. unfold marker_of in H2. rewrite H2 in Hs. simpl in Hs.
  pose proof (scan_lookup_other h post (own_set "foo" C2 ma) "foo" Hpost) as Hk.
  destruct (scan h post _) as [[m' ys'] e']. simplify_eq. simpl in Hk.
  rewrite Hk. apply lookup_insert_eq.
Qed.

(** ** The caller's objects *)

(** C8.  Every object the store held before the call, the caller's array
    and each child element among them, is the same after the call, whether
    the call returns or throws: the positions are nulled in the copy. *)
Theorem findSlots_no_mutation h v l o :
  h !! l = Some o → (findSlots v h).1 !! l = Some o.
Proof.
  intros Hl. rewrite <- (findSlots_frame h v) in Hl at 1.
  by apply lookup_take_Some in Hl as [? _].
Qed.

(** ** The marker component *)

(** C9.  For every name, absent and empty included, and every children
    value, [Slot] returns without an error a new [React.Fragment] element
    whose only prop is the given children; no object of the store is
    changed. *)
Theorem Slot_fragment p h :
  ∃ e, Slot p h = (h ++ [OElem e], Ret (VRef (length h))) ∧
       type e = TFragment ∧
       key e = Some ("slot#" +:+ to_string (name p)) ∧
       props e = {| name := None; children := children p |}.
Proof. eexists. by split. Qed.

(** ** Errors *)

Lemma existsb_unnamed h xs :
  existsb (unnamed_markerb h) xs = true ↔ Exists (unnamed_marker h) xs.
Proof.
  rewrite existsb_exists, Exists_exists.
  split; intros (x & Hx & H); exists x; (split; [by apply list_elem_of_In|]);
    by apply unnamed_markerb_spec.
Qed.

(** C2 (as amended).  [findSlots] throws the missing-name error exactly
    when the scan reaches a [Slot] marker whose name is absent or the empty
    string.  If the error is thrown there is such a marker, with no [null]
    and no [undefined] child before it.  Conversely, a marker without a name
    that has no [null] or [undefined] child before it, and no marker before
    it that replaces the prototype of the slot map, makes the call throw
    that error.  The error comes at the first such marker: the scan stops
    there, the items of the working copy from that position on are as they
    were, and no value is returned. *)
Theorem findSlots_missing_name h v :
  ((findSlots v h).2 = Throw MissingSlotName →
     ∃ pre x post,
       normalized h v = pre ++ x :: post ∧ unnamed_marker h x ∧
       Forall (λ y, is_nullish y = false) pre ∧
       Forall (λ y, ¬ unnamed_marker h y) pre) ∧
  (∀ pre x post,
     normalized h v = pre ++ x :: post →
     Forall (λ y, is_nullish y = false) pre →
     Forall (λ y, installs_prototype h y = false) pre →
     unnamed_marker h x →
     (findSlots v h).2 = Throw MissingSlotName ∧
     (Forall (λ y, ¬ unnamed_marker h y) pre →
        ∃ m ys, length ys = length pre ∧
                findSlots v h =
                  (h ++ [OArr (ys ++ x :: post); OMap m], Throw MissingSlotName))).
Proof.
  split.
  - rewrite findSlots_Throw. apply scan_missing_inv.
  - intros pre x post Hv Hn _ Hx. split.
    + apply findSlots_Throw. rewrite Hv, (cons_middle x pre post), app_assoc.
      assert (Hn' : Forall (λ y, is_nullish y = false) (pre ++ [x])).
      { apply Forall_app. split; [done|]. constructor; [|done].
        apply unnamed_marker_classify in Hx as (p & Hp & _).
        by apply classify_marker in Hp as [? _]. }
      pose proof (scan_error h (pre ++ [x]) ∅ Hn') as He.
      rewrite (proj2 (existsb_unnamed h (pre ++ [x]))) in He
        by (apply Exists_app; right; by constructor).
      destruct (scan h (pre ++ [x]) ∅) as [[m1 ys1] e1] eqn:Hs. simpl in He. subst e1.
      by rewrite (scan_app_error _ _ _ _ _ _ _ Hs).
    + intros Hpre.
      pose proof (scan_error h pre ∅ Hn) as He.
      pose proof (scan_length h pre ∅) as Hl.
      destruct (existsb (unnamed_markerb h) pre) eqn:Hex.
      { apply existsb_unnamed, Exists_exists in Hex as (y & Hy & Hu).
        by destruct (proj1 (Forall_forall _ _) Hpre y Hy). }
      destruct (scan h pre ∅) as [[m1 ys1] e1] eqn:Hs. simpl in He, Hl. subst e1.
      exists m1, ys1. split; [done|].
      rewrite findSlots_run, Hv, (scan_app _ _ _ _ _ _ Hs). simpl.
      apply unnamed_marker_classify in Hx as (p & -> & ->). done.
Qed.

(** C4 (as amended).  On a sequence with no [null] and no [undefined]
    child, and with no marker that replaces the prototype of the slot map,
    the only error is the missing-name error, and it needs a marker without
    a name; otherwise the call returns, and every child that is no marker (a
    boolean, a number, a string, an element of another type, an array) is an
    item of the [default] array. *)
Theorem findSlots_foreign_children h v :
  Forall (λ x, is_nullish x = false) (normalized h v) →
  Forall (λ x, installs_prototype h x = false) (normalized h v) →
  ((findSlots v h).2 = Throw MissingSlotName ∧
     Exists (unnamed_marker h) (normalized h v)) ∨
  (∃ h' l m d ys,
     findSlots v h = (h', Ret (VRef l)) ∧ h' !! l = Some (OMap m) ∧
     m !! "default" = Some (VRef d) ∧ h' !! d = Some (OArr ys) ∧
     ∀ x, x ∈ normalized h v → is_marker h x = false → x ∈ ys).
Proof.
  intros Hn _. pose proof (scan_error h (normalized h v) ∅ Hn) as He.
  destruct (existsb (unnamed_markerb h) (normalized h v)) eqn:Hex.
  - left. split; [by apply findSlots_Throw|by apply existsb_unnamed].
  - right. destruct (scan h (normalized h v) ∅) as [[m ys] e] eqn:Hs.
    simpl in He. subst e.
    eexists _, _, _, _, _. split; [apply findSlots_Ret; eauto|].
    split; [apply lookup_new_map|]. split; [apply lookup_insert_eq|].
    split; [apply lookup_new_default|].
    intros x Hx Hm. apply list_elem_of_In, filter_In.
    split; [by apply list_elem_of_In|by rewrite Hm].
Qed.

(** X2.  What the scan does at a [null] or [undefined] child it reaches,
    that is, one with no such child and no marker without a name before it:
    the read of [child.type] throws a [TypeError], whatever follows. *)
Lemma findSlots_nullish_child h v pre x post :
  normalized h v = pre ++ x :: post →
  Forall (λ y, is_nullish y = false) pre →
  Forall (λ y, ¬ unnamed_marker h y) pre →
  is_nullish x = true →
  (findSlots v h).2 = Throw TypeError.
Proof.
  intros Hv Hn Hpre Hx. apply findSlots_Throw. rewrite Hv.
  pose proof (scan_error h pre ∅ Hn) as He.
  destruct (existsb (unnamed_markerb h) pre) eqn:Hex.
  { apply existsb_unnamed, Exists_exists in Hex as (y & Hy & Hu).
    by destruct (proj1 (Forall_forall _ _) Hpre y Hy). }
  destruct (scan h pre ∅) as [[m1 ys1] e1] eqn:Hs. simpl in He. subst e1.
  rewrite (scan_app _ _ _ _ _ _ Hs). simpl.
  apply (classify_nullish h) in Hx. by rewrite Hx.
Qed.

(** ** A single child *)

Lemma scan_ext h h' xs m :
  (∀ l, elem_at h' l = elem_at h l) → scan h' xs m = scan h xs m.
Proof.
  intros E. revert m. induction xs as [|x xs IH]; intros m; simpl; [done|].
  rewrite (classify_ext h h' x E). destruct (classify h x) as [| |p]; [done| |].
  - by rewrite IH.
  - destruct (truthy (name p)); [|done]. by rewrite IH.
Qed.

Lemma view_returned h o1 m d :
  view (h ++ [o1; OMap (<["default" := VRef (S (S (length h)))]> m); OArr d],
        Ret (VRef (S (length h)))) =
    Ret (delete "default" m, Some d).
Proof.
  unfold view. simpl. rewrite lookup_new_map, delete_insert_eq, lookup_insert_eq.
  simpl. by rewrite lookup_new_default.
Qed.

(** C6.  For a child [X] that is not an array, [findSlots(X)] and
    [findSlots([X])] end the same way: with the same error, or with maps
    that have the same named entries and [default] arrays with the same
    items. *)
Theorem findSlots_single_child h X :
  is_array h X = false →
  view (findSlots X h) = view (findSlots (VRef (length h)) (h ++ [OArr [X]])).
Proof.
  intros HX.
  assert (E : ∀ l, elem_at (h ++ [OArr [X]]) l = elem_at h l)
    by (intros l; by apply elem_at_app).
  assert (N1 : normalized h X = [X]).
  { unfold normalized. unfold is_array in HX. destruct X as [| | | | |l]; try done.
    by destruct (h !! l) as [[]|]. }
  assert (N2 : normalized (h ++ [OArr [X]]) (VRef (length h)) = [X]).
  { unfold normalized. by rewrite list_lookup_middle. }
  rewrite !findSlots_run, N1, N2, (scan_ext h _ _ _ E).
  destruct (scan h [X] ∅) as [[m ys] [e|]]; [done|].
  by rewrite !view_returned.
Qed.

(** ** The sample stores, run *)

(** The end-to-end example: [foo] and [bar] are bound to the two nested
    [span]s, [default] to an array holding the third. *)
Example findSlots_doc_example :
  let r := findSlots (VRef 5) doc_store in
  r.2 = Ret (VRef 7) ∧
  r.1 !! 7 = Some (OMap (<["foo" := VRef 0]> (<["bar" := VRef 1]> {["default" := VRef 8]}))) ∧
  r.1 !! 8 = Some (OArr [VRef 2]) ∧
  r.1 !! 5 = Some (OArr [VRef 3; VRef 4; VRef 2]).
Proof. vm_compute. done. Qed.

Lemma findSlots_one_marker_witness :
  ∃ h' r d,
    findSlots (VRef 2) one_store = (h', Ret (VRef r)) ∧
    h' !! r = Some (OMap (<["default" := VRef d]> {["foo" := VRef 0]})) ∧
    h' !! d = Some (OArr [VRef 0; VStr "text"]).
Proof.
  apply (findSlots_one_marker one_store (VRef 2) [VRef 0] (VRef 1) [VStr "text"] (VRef 0));
    [reflexivity | reflexivity | by repeat constructor | by repeat constructor].
Defined.

(** With a [null] child before the marker the call throws a [TypeError]
    at the read of [child.type] and returns no map. *)
Lemma findSlots_one_marker_null_child :
  normalized null_store (VRef 1) = [VNull] ++ VRef 0 :: [] ∧
  marker_of null_store (VRef 0) (Some "foo") (VStr "c") ∧
  Forall (λ x, is_marker null_store x = false) ([VNull] ++ []) ∧
  findSlots (VRef 1) null_store = (null_store ++ [OArr [VNull; VRef 0]; OMap ∅], Throw TypeError).
Proof. repeat split. by repeat constructor. Qed.

Lemma findSlots_no_marker_witness :
  ∃ h' r d,
    findSlots (VRef 1) foreign_store = (h', Ret (VRef r)) ∧
    h' !! r = Some (OMap {["default" := VRef d]}) ∧
    h' !! d = Some (OArr [VBool false; VNum 5; VStr "text"; VRef 0; VRef 1]).
Proof.
  apply (findSlots_no_marker foreign_store (VRef 1)); by repeat constructor.
Defined.

(** A sequence without markers on which the call does not succeed: its
    second child is [null]. *)
Lemma findSlots_no_marker_null_child :
  Forall (λ x, is_marker null_store x = false) (normalized null_store (VRef 4)) ∧
  findSlots (VRef 4) null_store =
    (null_store ++ [OArr [VStr "text"; VNull]; OMap ∅], Throw TypeError).
Proof. split; [by repeat constructor|reflexivity]. Qed.

Lemma findSlots_missing_name_witness :
  (findSlots (VRef 1) late_null_store).2 = Throw MissingSlotName ∧
  (Forall (λ y, ¬ unnamed_marker late_null_store y) [VStr "text"] →
     ∃ m ys, length ys = length [VStr "text"] ∧
             findSlots (VRef 1) late_null_store =
               (late_null_store ++ [OArr (ys ++ VRef 0 :: [VNull]); OMap m],
                Throw MissingSlotName)).
Proof.
  apply (proj2 (findSlots_missing_name late_null_store (VRef 1))
           [VStr "text"] (VRef 0) [VNull]);
    [reflexivity | by repeat constructor | by repeat constructor | ].
  exists (VStr "y"). by left.
Defined.

(** A marker with an empty name after a [null] child: the error thrown is
    the [TypeError] of the [null] child, not the missing-name error. *)
Lemma findSlots_missing_name_null_child :
  Exists (unnamed_marker null_store) (normalized null_store (VRef 3)) ∧
  (findSlots (VRef 3) null_store).2 = Throw TypeError ∧
  (findSlots (VRef 3) null_store).2 ≠ Throw MissingSlotName.
Proof.
  split; [|by split].
  apply Exists_cons_tl, Exists_cons_hd. exists (VStr "c"). by right.
Qed.

Lemma findSlots_foreign_children_witness :
  ((findSlots (VRef 1) foreign_store).2 = Throw MissingSlotName ∧
     Exists (unnamed_marker foreign_store) (normalized foreign_store (VRef 1))) ∨
  (∃ h' l m d ys,
     findSlots (VRef 1) foreign_store = (h', Ret (VRef l)) ∧ h' !! l = Some (OMap m) ∧
     m !! "default" = Some (VRef d) ∧ h' !! d = Some (OArr ys) ∧
     ∀ x, x ∈ normalized foreign_store (VRef 1) → is_marker foreign_store x = false → x ∈ ys).
Proof.
  apply (findSlots_foreign_children foreign_store (VRef 1)); by repeat constructor.
Defined.

(** Children that are no markers and on which the call fails: [undefined]
    as the single child (a component used without children), and [null] in
    a sequence. *)
Lemma findSlots_foreign_children_nullish :
  is_marker [] VUndefined = false ∧
  findSlots VUndefined [] = ([OArr [VUndefined]; OMap ∅], Throw TypeError) ∧
  is_marker null_store VNull = false ∧
  (findSlots (VRef 4) null_store).2 = Throw TypeError.
Proof. done. Qed.

Lemma findSlots_last_write_wins_witness :
  ∃ l m, VRef 4 = VRef l ∧
         (findSlots (VRef 2) twice_store).1 !! l = Some (OMap m) ∧
         m !! "foo" = Some (VStr "second").
Proof.
  apply (findSlots_last_write_wins twice_store (VRef 2)
           [] (VRef 0) [VStr "between"] (VRef 1) [] (VStr "first") (VStr "second"));
    [reflexivity | reflexivity | reflexivity | constructor | reflexivity].
Defined.

Lemma findSlots_single_child_witness :
  view (findSlots (VRef 3) doc_store) =
    view (findSlots (VRef 6) (doc_store ++ [OArr [VRef 3]])).
Proof. apply (findSlots_single_child doc_store (VRef 3)). reflexivity. Defined.

Lemma findSlots_default_order_witness :
  ∃ l m d ys,
    VRef 6 = VRef l ∧ (findSlots (VRef 4) order_store).1 !! l = Some (OMap m) ∧
    m !! "default" = Some (VRef d) ∧
    (findSlots (VRef 4) order_store).1 !! d = Some (OArr ys) ∧
    ys = List.filter (λ x, negb (is_marker order_store x)) [VRef 0; VRef 3; VRef 1; VRef 2] ∧
    sublist ys [VRef 0; VRef 3; VRef 1; VRef 2].
Proof.
  apply (findSlots_default_order order_store (VRef 4)). reflexivity.
Defined.

Lemma findSlots_no_mutation_witness :
  (findSlots (VRef 5) doc_store).1 !! 5 = Some (OArr [VRef 3; VRef 4; VRef 2]).
Proof. apply (findSlots_no_mutation doc_store (VRef 5) 5). reflexivity. Defined.

Lemma findSlots_default_overwrites_witness :
  ∃ l m d,
    VRef 3 = VRef l ∧ (findSlots (VRef 1) default_store).1 !! l = Some (OMap m) ∧
    m !! "default" = Some (VRef d) ∧ default_store !! d = None ∧
    (findSlots (VRef 1) default_store).1 !! d =
      Some (OArr (List.filter (λ x, negb (is_marker default_store x)) [VRef 0; VStr "kept"])) ∧
    (∀ x C, x ∈ [VRef 0; VStr "kept"] → marker_of default_store x (Some "default") C →
            value_in default_store C → m !! "default" ≠ Some C) ∧
    ∃ m0, m = <["default" := VRef d]> m0 ∧
          ∀ k, k ≠ "__proto__" →
               m0 !! k = last_named default_store k [VRef 0; VStr "kept"].
Proof.
  apply (findSlots_default_overwrites default_store (VRef 1)). reflexivity.
Defined.

(** ** Further properties of [findSlots] *)

Lemma scan_ok_iff h xs m :
  (scan h xs m).2 = None ↔
  Forall (λ x, is_nullish x = false ∧ ¬ unnamed_marker h x) xs.
Proof.
  revert m. induction xs as [|x xs IH]; intros m; simpl; [by split|].
  rewrite Forall_cons. destruct (classify h x) as [| |p] eqn:Hc.
  - split; [done|]. intros [[Hn _] _]. apply classify_nullish in Hc. congruence.
  - specialize (IH m). destruct (scan h xs m) as [[m' ys] e]. simpl in *.
    rewrite IH. split; [|by intros [_ ?]]. intros H. split; [|done]. split.
    + by apply classify_plain in Hc as [? _].
    + intros (q & Hq & _)%unnamed_marker_classify. congruence.
  - destruct (truthy (name p)) eqn:Ht.
    + specialize (IH (own_set (to_string (name p)) (children p) m)).
      destruct (scan h xs _) as [[m' ys] e]. simpl in *.
      rewrite IH. split; [|by intros [_ ?]]. intros H. split; [|done]. split.
      * by apply classify_marker in Hc as [? _].
      * intros (q & Hq & Hf)%unnamed_marker_classify. congruence.
    + split; [done|]. intros [[_ Hu] _]. destruct Hu.
      apply unnamed_marker_classify. eauto.
Qed.

(** X1.  On a sequence in which no marker replaces the prototype of the
    slot map, a call returns exactly when no child is [null] or [undefined]
    and no marker lacks a name; otherwise it throws. *)
Theorem findSlots_returns_iff h v :
  Forall (λ x, installs_prototype h x = false) (normalized h v) →
  ((∃ h' r, findSlots v h = (h', Ret r)) ↔
   Forall (λ x, is_nullish x = false ∧ ¬ unnamed_marker h x) (normalized h v)).
Proof.
  intros _. rewrite <- (scan_ok_iff h _ ∅). split.
  - intros (h' & r & (m & ys & Hs & _)%findSlots_Ret). by rewrite Hs.
  - intros He. destruct (scan h (normalized h v) ∅) as [[m ys] e] eqn:Hs.
    simpl in He. subst e. eexists _, _. apply findSlots_Ret. eauto.
Qed.

Lemma findSlots_returns_iff_witness :
  (∃ h' r, findSlots (VRef 5) doc_store = (h', Ret r)) ↔
  Forall (λ x, is_nullish x = false ∧ ¬ unnamed_marker doc_store x)
    [VRef 3; VRef 4; VRef 2].
Proof. apply (findSlots_returns_iff doc_store (VRef 5)). by repeat constructor. Defined.

Lemma findSlots_nullish_child_witness :
  (findSlots (VRef 4) null_store).2 = Throw TypeError.
Proof.
  apply (findSlots_nullish_child null_store (VRef 4) [VStr "text"] VNull []);
    [reflexivity | by repeat constructor | | reflexivity].
  constructor; [|constructor]. by intros [c [H|H]].
Defined.

(** X3.  In the map a call returns, the entry of a name other than
    [default] and [__proto__] is the nested content of the last marker of
    that name, the very value the marker holds; a name no marker has is not
    a key. *)
Theorem findSlots_named_entry h v h' r k :
  findSlots v h = (h', Ret r) →
  k ≠ "default" → k ≠ "__proto__" →
  ∃ l m, r = VRef l ∧ h' !! l = Some (OMap m) ∧
         m !! k = last_named h k (normalized h v).
Proof.
  intros (m & ys & Hs & -> & ->)%findSlots_Ret Hd Hk.
  eexists _, _. split; [reflexivity|]. split; [apply lookup_new_map|].
  rewrite lookup_insert_ne by done.
  pose proof (scan_named h (normalized h v) ∅ k Hk) as Hn.
  rewrite Hs in Hn. simpl in Hn. rewrite Hn by done.
  by destruct (last_named h k (normalized h v)).
Qed.

Lemma findSlots_named_entry_witness :
  ∃ l m, VRef 4 = VRef l ∧
         (findSlots (VRef 2) twice_store).1 !! l = Some (OMap m) ∧
         m !! "foo" = last_named twice_store "foo" [VRef 0; VStr "between"; VRef 1].
Proof.
  apply (findSlots_named_entry twice_store (VRef 2)); [reflexivity|done|done].
Defined.

Lemma elem_at_app_list h os l :
  Forall not_elem os → elem_at (h ++ os) l = elem_at h l.
Proof.
  intros H. revert h. induction H as [|o os Ho _ IH]; intros h.
  - by rewrite app_nil_r.
  - rewrite (cons_middle o h os), app_assoc, IH. by apply elem_at_app.
Qed.

Lemma default_items_plain h xs m m' ys :
  scan h xs m = (m', ys, None) →
  Forall (λ x, classify h x = KPlain) (List.filter (λ x, negb (is_marker h x)) xs).
Proof.
  intros Hs. pose proof (proj1 (scan_ok_iff h xs m)) as Hok. rewrite Hs in Hok.
  specialize (Hok eq_refl). apply Forall_forall. intros x Hx.
  apply list_elem_of_In, filter_In in Hx as [Hx Hm]. apply negb_true_iff in Hm.
  apply is_marker_false; [|done].
  by destruct (proj1 (Forall_forall _ _) Hok x (proj2 (list_elem_of_In _ _) Hx)).
Qed.

(** X4.  The [default] array of a returned map holds no [null], no
    [undefined] and no [Slot] marker. *)
Theorem findSlots_default_plain h v h' r :
  findSlots v h = (h', Ret r) →
  ∃ l m d ys,
    r = VRef l ∧ h' !! l = Some (OMap m) ∧
    m !! "default" = Some (VRef d) ∧ h' !! d = Some (OArr ys) ∧
    Forall (λ x, is_nullish x = false ∧ is_marker h' x = false) ys.
Proof.
  intros (m & ys & Hs & -> & ->)%findSlots_Ret.
  eexists _, _, _, _. split; [reflexivity|]. split; [apply lookup_new_map|].
  split; [apply lookup_insert_eq|]. split; [apply lookup_new_default|].
  eapply Forall_impl; [exact (default_items_plain _ _ _ _ _ Hs)|].
  intros x Hx. simpl in Hx. split; [by apply classify_plain in Hx as (? & _)|].
  unfold is_marker. rewrite (classify_ext h _ x), Hx; [done|].
  intros l. apply elem_at_app_list. by repeat constructor.
Qed.

Lemma findSlots_default_plain_witness :
  ∃ l m d ys,
    VRef 7 = VRef l ∧ (findSlots (VRef 5) doc_store).1 !! l = Some (OMap m) ∧
    m !! "default" = Some (VRef d) ∧
    (findSlots (VRef 5) doc_store).1 !! d = Some (OArr ys) ∧
    Forall (λ x, is_nullish x = false ∧
                 is_marker (findSlots (VRef 5) doc_store).1 x = false) ys.
Proof. apply (findSlots_default_plain doc_store (VRef 5)). reflexivity. Defined.

(** X5.  Scanning the [default] array of a returned map again finds no slot:
    the second call returns a map whose only key is [default], bound to a
    new array with the same items. *)
Theorem findSlots_rescan_default h v h' l m dv :
  findSlots v h = (h', Ret (VRef l)) →
  h' !! l = Some (OMap m) →
  m !! "default" = Some dv →
  ∃ ys h'' l' d',
    items_at h' dv = Some ys ∧
    findSlots dv h' = (h'', Ret (VRef l')) ∧
    h'' !! l' = Some (OMap {["default" := VRef d']}) ∧
    h'' !! d' = Some (OArr ys).
Proof.
  intros (m0 & ys & Hs & [= ->] & ->)%findSlots_Ret Hl Hd.
  rewrite lookup_new_map in Hl. injection Hl as <-.
  rewrite lookup_insert_eq in Hd. injection Hd as <-.
  set (d := List.filter (λ x, negb (is_marker h x)) (normalized h v)).
  set (h' := h ++ _).
  assert (E : ∀ l, elem_at h' l = elem_at h l)
    by (intros l; apply elem_at_app_list; by repeat constructor).
  assert (Hn : normalized h' (VRef (S (S (length h)))) = d)
    by (unfold normalized, h'; by rewrite lookup_new_default).
  assert (Hp : Forall (λ x, classify h' x = KPlain) d).
  { eapply Forall_impl; [exact (default_items_plain _ _ _ _ _ Hs)|].
    intros x Hx. simpl. by rewrite (classify_ext h h' x E). }
  exists d. eexists _, _, _. split; [|split; [|split]].
  - unfold items_at, h'. by rewrite lookup_new_default.
  - apply findSlots_Ret. eexists _, _. rewrite Hn, (scan_plain _ _ _ Hp). eauto.
  - apply lookup_new_map.
  - rewrite lookup_new_default. f_equal. f_equal. apply filter_keep_all.
    eapply Forall_impl; [exact Hp|]. intros x Hx. simpl.
    by apply classify_plain in Hx as (_ & -> & _).
Qed.

Lemma findSlots_rescan_default_witness :
  ∃ ys h'' l' d',
    items_at (findSlots (VRef 5) doc_store).1 (VRef 8) = Some ys ∧
    findSlots (VRef 8) (findSlots (VRef 5) doc_store).1 = (h'', Ret (VRef l')) ∧
    h'' !! l' = Some (OMap {["default" := VRef d']}) ∧
    h'' !! d' = Some (OArr ys).
Proof.
  apply (findSlots_rescan_default doc_store (VRef 5) _ 7
           (<["foo" := VRef 0]> (<["bar" := VRef 1]> {["default" := VRef 8]})));
    reflexivity.
Defined.

(** X6.  The element [Slot] returns is no marker: given as the child to
    [findSlots], it ends in the [default] array and names no slot. *)
Theorem findSlots_of_Slot p h :
  ∃ e h1 h2 r d,
    Slot p h = (h1, Ret e) ∧
    findSlots e h1 = (h2, Ret (VRef r)) ∧
    h2 !! r = Some (OMap {["default" := VRef d]}) ∧
    h2 !! d = Some (OArr [e]).
Proof.
  eexists _, _, _, _, _. split; [reflexivity|].
  set (e := OElem _). set (h1 := h ++ [e]).
  assert (Hl : h1 !! length h = Some e) by (by apply list_lookup_middle).
  assert (Hn : normalized h1 (VRef (length h)) = [VRef (length h)])
    by (unfold normalized; by rewrite Hl).
  assert (Hc : classify h1 (VRef (length h)) = KPlain)
    by (unfold classify; by rewrite Hl).
  split; [|split].
  - apply findSlots_Ret. eexists _, _. rewrite Hn, scan_plain; [eauto|].
    by repeat constructor.
  - apply lookup_new_map.
  - rewrite lookup_new_default. f_equal. f_equal. apply filter_keep_all.
    constructor; [|constructor]. unfold is_marker. subst h1 e. by rewrite Hc.
Qed.

Lemma filter_split_perm {A} (f : A → bool) (l : list A) :
  l ≡ₚ List.filter (λ a, negb (f a)) l ++ List.filter f l.
Proof.
  induction l as [|a l IH]; simpl; [done|].
  destruct (f a); simpl.
  - rewrite <- Permutation_middle. by constructor.
  - by constructor.
Qed.

(** X7.  A returning call loses no child and repeats none: the input
    sequence is the [default] array together with the markers, up to
    order. *)
Theorem findSlots_partition h v h' r :
  findSlots v h = (h', Ret r) →
  ∃ l m d ys,
    r = VRef l ∧ h' !! l = Some (OMap m) ∧
    m !! "default" = Some (VRef d) ∧ h' !! d = Some (OArr ys) ∧
    normalized h v ≡ₚ ys ++ List.filter (is_marker h) (normalized h v).
Proof.
  intros (m & ys & Hs & -> & ->)%findSlots_Ret.
  eexists _, _, _, _. split; [reflexivity|]. split; [apply lookup_new_map|].
  split; [apply lookup_insert_eq|]. split; [apply lookup_new_default|].
  apply filter_split_perm.
Qed.

Lemma findSlots_partition_witness :
  ∃ l m d ys,
    VRef 6 = VRef l ∧ (findSlots (VRef 4) order_store).1 !! l = Some (OMap m) ∧
    m !! "default" = Some (VRef d) ∧
    (findSlots (VRef 4) order_store).1 !! d = Some (OArr ys) ∧
    [VRef 0; VRef 3; VRef 1; VRef 2] ≡ₚ
      ys ++ List.filter (is_marker order_store) [VRef 0; VRef 3; VRef 1; VRef 2].
Proof. apply (findSlots_partition order_store (VRef 4)). reflexivity. Defined.

(** ** Scanning a concatenation *)

Lemma view_findSlots h v :
  view (findSlots v h) =
    let '(m, _, e) := scan h (normalized h v) ∅ in
    match e with
    | Some e => Throw e
    | None => Ret (delete "default" m,
                   Some (List.filter (λ x, negb (is_marker h x)) (normalized h v)))
    end.
Proof.
  rewrite findSlots_run.
  destruct (scan h (normalized h v) ∅) as [[m ys] [e|]] eqn:Hs; [done|].
  by rewrite view_returned, (scan_filter _ _ _ _ _ Hs).
Qed.

Lemma own_set_union k c (m m0 : gmap string value) :
  own_set k c (m ∪ m0) = own_set k c m ∪ m0.
Proof. unfold own_set. case_decide; [done|]. by rewrite insert_union_l. Qed.

(** A scan that gets through does so from any map of earlier entries, which
    it keeps where it writes no entry of its own. *)
Lemma scan_union h xs (m m0 m' : gmap string value) ys :
  scan h xs m = (m', ys, None) → scan h xs (m ∪ m0) = (m' ∪ m0, ys, None).
Proof.
  revert m ys. induction xs as [|x xs IH]; intros m ys H; simpl in *.
  - by simplify_eq.
  - destruct (classify h x) as [| |p]; [done| |].
    + destruct (scan h xs m) as [[m2 ys2] e2] eqn:E. simplify_eq.
      by rewrite (IH _ _ E).
    + destruct (truthy (name p)); [|done].
      destruct (scan h xs (own_set _ _ m)) as [[m2 ys2] e2] eqn:E. simplify_eq.
      by rewrite own_set_union, (IH _ _ E).
Qed.

(** X8.  When the calls on two sequences return, and no marker of either
    replaces the prototype of the slot map, so does the call on their
    concatenation: its [default] items are those of the first followed by
    those of the second, and its named entries are those of the second
    together with those of the first that the second does not name. *)
Theorem findSlots_concat h va vb vc m1 d1 m2 d2 :
  normalized h vc = normalized h va ++ normalized h vb →
  Forall (λ x, installs_prototype h x = false) (normalized h vc) →
  view (findSlots va h) = Ret (m1, Some d1) →
  view (findSlots vb h) = Ret (m2, Some d2) →
  view (findSlots vc h) = Ret (m2 ∪ m1, Some (d1 ++ d2)).
Proof.
  intros Hc _. rewrite !view_findSlots, Hc.
  destruct (scan h (normalized h va) ∅) as [[ma ya] [ea|]] eqn:Ha; [done|].
  destruct (scan h (normalized h vb) ∅) as [[mb yb] [eb|]] eqn:Hb; [done|].
  intros [= <- <-] [= <- <-].
  rewrite (scan_app _ _ _ _ _ _ Ha).
  apply (scan_union h _ ∅ ma) in Hb. rewrite (left_id_L ∅ (∪)) in Hb. rewrite Hb.
  by rewrite delete_union, List.filter_app.
Qed.

Lemma findSlots_concat_witness :
  view (findSlots (VRef 4) concat_store) =
    Ret ({["a" := VStr "2"]} ∪ {["a" := VStr "1"]}, Some ([VStr "x"] ++ [VStr "y"])).
Proof.
  apply (findSlots_concat concat_store (VRef 2) (VRef 3) (VRef 4));
    [reflexivity | by repeat constructor | reflexivity | reflexivity].
Defined.



(** X10.  What a call gives depends on the sequence of children alone, not
    on the array that carries it: two inputs with the same children, be it
    two arrays or a single child and an array holding it, end with the same
    error or with the same named entries and [default] items. *)
Theorem findSlots_same_children h va vb :
  normalized h va = normalized h vb →
  view (findSlots va h) = view (findSlots vb h).
Proof. intros Hn. by rewrite !view_findSlots, Hn. Qed.

Lemma findSlots_same_children_witness :
  view (findSlots (VRef 5) (doc_store ++ [OArr [VRef 3; VRef 4; VRef 2]])) =
    view (findSlots (VRef 6) (doc_store ++ [OArr [VRef 3; VRef 4; VRef 2]])).
Proof.
  apply (findSlots_same_children (doc_store ++ [OArr [VRef 3; VRef 4; VRef 2]])
           (VRef 5) (VRef 6)).
  reflexivity.
Defined.
